(** * A first-fit [sbrk] allocator: model of [malloc.c] and its properties

    The C file keeps a singly linked chain of [struct block_meta] records,
    one in front of every region it has handed out, and grows the program
    break with [sbrk] whenever no released record is large enough.

    The model is a shallow embedding for an LP64 target ([size_t] and
    pointers are 64 bits wide, [int] is 32 bits wide):

    - a [struct block_meta] is a record; the records live in a store keyed
      by their address, so that [block->free = 0] is an update of the record
      at address [block] and two pointers to one record alias;
    - payload bytes live in a byte store indexed by address;
    - [sbrk] is the external collaborator: the break, together with the
      bounds inside which the kernel moves it, is part of the state;
    - a C function becomes a function from the heap to an [outcome]: it
      returns, it dies in [assert] (the file does not define NDEBUG), its
      behaviour is undefined, or its loop does not terminate;
    - every call of [sbrk] and of [malloc] is appended to a ghost log, which
      is what lets a statement say that a function was never called. *)

From stdpp Require Import gmap list.
From Stdlib Require Import ZArith Lia.

Local Open Scope Z_scope.

(** ** Machine integers and pointers *)

(** [SIZE_MAX] of <stdint.h> for a 64-bit [size_t]. *)
Definition SIZE_MAX : Z := 2 ^ 64 - 1.

(** Conversion of an integer value to [size_t] (what happens to an argument
    at a call of a function whose parameter has type [size_t]). *)
Definition size_t_of (z : Z) : Z := z mod 2 ^ 64.

(** Conversion of a [size_t] value to [intptr_t], the parameter type of
    [sbrk]. *)
Definition intptr_of (z : Z) : Z :=
  let w := z mod 2 ^ 64 in
  if w <? 2 ^ 63 then w else w - 2 ^ 64.

Definition NULL : Z := 0.

(** [(void * )-1], the value [sbrk] returns when it fails. *)
Definition SBRK_FAILED : Z := size_t_of (-1).

(** ** [struct block_meta] *)

Record block_meta : Type := mk_block_meta {
  bm_size : Z;   (* size_t size *)
  bm_next : Z;   (* struct block_meta *next *)
  bm_free : Z;   (* int free *)
  bm_magic : Z   (* int magic *)
}.

(** [#define META_SIZE sizeof(struct block_meta)]: 8 + 8 + 4 + 4 bytes. *)
Definition META_SIZE : Z := 24.

(** The three values the code writes to [magic]. *)
Definition MAGIC_CARVED : Z := 0x12345678.
Definition MAGIC_RECYCLED : Z := 0x77777777.
Definition MAGIC_RELEASED : Z := 0x55555555.

Definition set_next (n : Z) (b : block_meta) : block_meta :=
  mk_block_meta (bm_size b) n (bm_free b) (bm_magic b).

Definition set_free_magic (f g : Z) (b : block_meta) : block_meta :=
  mk_block_meta (bm_size b) (bm_next b) f g.

(** ** The heap *)

Inductive event : Type :=
| Ev_sbrk (increment : Z)
| Ev_malloc (size : Z).

Record heap : Type := mk_heap {
  brk : Z;                      (* the program break *)
  heap_lo : Z;                  (* lowest break the kernel accepts *)
  heap_hi : Z;                  (* highest break the kernel grants *)
  global_base : Z;              (* void *global_base *)
  meta : gmap Z block_meta;     (* the block_meta records, by address *)
  bytes : Z -> Z;               (* payload bytes, by address *)
  calls : list event            (* ghost: calls made so far, latest first *)
}.

Definition set_brk (a : Z) (h : heap) : heap :=
  mk_heap a (heap_lo h) (heap_hi h) (global_base h) (meta h) (bytes h) (calls h).

Definition set_global_base (a : Z) (h : heap) : heap :=
  mk_heap (brk h) (heap_lo h) (heap_hi h) a (meta h) (bytes h) (calls h).

Definition set_meta (m : gmap Z block_meta) (h : heap) : heap :=
  mk_heap (brk h) (heap_lo h) (heap_hi h) (global_base h) m (bytes h) (calls h).

Definition set_bytes (f : Z -> Z) (h : heap) : heap :=
  mk_heap (brk h) (heap_lo h) (heap_hi h) (global_base h) (meta h) f (calls h).

Definition log (e : event) (h : heap) : heap :=
  mk_heap (brk h) (heap_lo h) (heap_hi h) (global_base h) (meta h) (bytes h)
          (e :: calls h).

(** How a call ends.  [Abort] and [Undef] carry the heap at the point where
    execution stopped. *)
Inductive outcome (A : Type) : Type :=
| Ret (v : A) (h : heap)   (* the function returned [v] *)
| Abort (h : heap)         (* an [assert] failed *)
| Undef (h : heap)         (* access to storage that holds no record *)
| Diverge.                 (* the loop runs forever *)

Arguments Ret {A} v h.
Arguments Abort {A} h.
Arguments Undef {A} h.
Arguments Diverge {A}.

Definition bind {A B : Type} (c : outcome A) (k : A -> heap -> outcome B)
  : outcome B :=
  match c with
  | Ret v h => k v h
  | Abort h => Abort h
  | Undef h => Undef h
  | Diverge => Diverge
  end.

Notation "'let*' ( x , h ) := c 'in' k" :=
  (bind c (fun x h => k))
  (at level 10, x name, h name, c at level 100, k at level 200).

(** ** The collaborators: [sbrk], [memcpy], [memset] *)

(** Modelled from the spec: [sbrk] is the heap-growth primitive of section 6
    (and of the comment at the head of the C file): it moves the break by
    [increment] bytes and returns the previous break, [sbrk(0)] only reads
    the break, and failure is the sentinel [(void * )-1].  The kernel grants
    a move exactly when the new break stays within [heap_lo .. heap_hi]. *)
Definition sbrk (increment : Z) (h : heap) : Z * heap :=
  let h := log (Ev_sbrk increment) h in
  if increment =? 0 then (brk h, h)
  else
    let new := brk h + increment in
    if (heap_lo h <=? new) && (new <=? heap_hi h)
    then (brk h, set_brk new h)
    else (SBRK_FAILED, h).

(** [memcpy(dst, src, n)]: the [n] bytes at [dst] become those at [src]. *)
Definition memcpy (dst src n : Z) (h : heap) : heap :=
  set_bytes (fun a => if (dst <=? a) && (a <? dst + n)
                      then bytes h (src + (a - dst))
                      else bytes h a) h.

(** [memset(dst, c, n)]: the [n] bytes at [dst] become [c]. *)
Definition memset (dst c n : Z) (h : heap) : heap :=
  set_bytes (fun a => if (dst <=? a) && (a <? dst + n) then c else bytes h a) h.

(** ** The allocator *)

Module Naive.

(** The first [malloc] of the file (lines 30-45), which only moves the
    break.  It tests for failure before it asserts. *)
Definition malloc (size : Z) (h : heap) : outcome Z :=
  let '(p, h) := sbrk 0 h in
  let '(request, h) := sbrk (intptr_of size) h in
  if request =? SBRK_FAILED then Ret NULL h
  else if negb (p =? request) then Abort h
  else Ret p h.

End Naive.

(** The loop of [find_free_block]; [fuel] bounds the number of times the
    loop condition is evaluated. *)
Fixpoint find_free_loop (fuel : nat) (size current last : Z) (h : heap)
  : outcome (Z * Z) :=
  match fuel with
  | O => Diverge
  | S fuel =>
      if current =? NULL then Ret (current, last) h
      else
        match meta h !! current with
        | None => Undef h
        | Some c =>
            if negb (bm_free c =? 0) && (size <=? bm_size c)
            then Ret (current, last) h
            else find_free_loop fuel size (bm_next c) current h
        end
  end.

(** [find_free_block(&last, size)] returns [current] and the final [*last].
    A chain without a cycle has at most as many records as the store, so a
    walk that has not ended after that many steps never ends (lemma
    [find_free_block_diverges] below). *)
Definition find_free_block (last size : Z) (h : heap) : outcome (Z * Z) :=
  find_free_loop (S (base.size (meta h))) size (global_base h) last h.

(** The records the loop of [find_free_block] steps over before it stops or
    runs out of [fuel]. *)
Fixpoint skipped (fuel : nat) (size current : Z) (h : heap) : list Z :=
  match fuel with
  | O => []
  | S fuel =>
      if current =? NULL then []
      else
        match meta h !! current with
        | None => []
        | Some c =>
            if negb (bm_free c =? 0) && (size <=? bm_size c) then []
            else current :: skipped fuel size (bm_next c) h
        end
  end.

(** [request_space(last, size)].  The C function stores through [block]
    without looking at how far the break has moved.  When the increment
    wrapped around or came out negative (a [size] of 2^63 or more), the
    record does not lie below the new break, the stores fall outside the
    storage of the program, and the behaviour is undefined. *)
Definition request_space (last size : Z) (h : heap) : outcome Z :=
  let '(block, h) := sbrk 0 h in
  let '(request, h) := sbrk (intptr_of (size + META_SIZE)) h in
  if negb (block =? request) then Abort h
  else if request =? SBRK_FAILED then Ret NULL h
  else if brk h <? block + META_SIZE then Undef h
  else
    let* (_, h) :=
      (if last =? NULL then Ret tt h
       else match meta h !! last with
            | None => Undef h
            | Some l => Ret tt (set_meta (<[last := set_next block l]> (meta h)) h)
            end) in
    Ret block
        (set_meta (<[block := mk_block_meta size NULL 0 MAGIC_CARVED]> (meta h)) h).

(** [malloc(size)] (lines 116-159). *)
Definition malloc (size : Z) (h : heap) : outcome Z :=
  let h := log (Ev_malloc size) h in
  if size <=? 0 then Ret NULL h
  else if global_base h =? NULL then
    let* (block, h) := request_space NULL size h in
    if block =? NULL then Ret NULL h
    else Ret (block + META_SIZE) (set_global_base block h)
  else
    let last := global_base h in
    let* (r, h) := find_free_block last size h in
    let '(block, last) := r in
    if block =? NULL then
      let* (block, h) := request_space last size h in
      if block =? NULL then Ret NULL h
      else Ret (block + META_SIZE) h
    else
      match meta h !! block with
      | None => Undef h
      | Some b =>
          Ret (block + META_SIZE)
              (set_meta (<[block := set_free_magic 0 MAGIC_RECYCLED b]> (meta h)) h)
      end.

Definition get_block_ptr (ptr : Z) : Z := ptr - META_SIZE.

(** [free(ptr)]. *)
Definition free (ptr : Z) (h : heap) : outcome unit :=
  if ptr =? NULL then Ret tt h
  else
    let block_ptr := get_block_ptr ptr in
    match meta h !! block_ptr with
    | None => Undef h
    | Some b =>
        if negb (bm_free b =? 0) then Abort h
        else if negb ((bm_magic b =? MAGIC_RECYCLED) || (bm_magic b =? MAGIC_CARVED))
        then Abort h
        else Ret tt (set_meta (<[block_ptr := set_free_magic 1 MAGIC_RELEASED b]> (meta h)) h)
    end.

(** [realloc(ptr, size)]. *)
Definition realloc (ptr size : Z) (h : heap) : outcome Z :=
  if ptr =? NULL then malloc size h
  else
    let block_ptr := get_block_ptr ptr in
    match meta h !! block_ptr with
    | None => Undef h
    | Some b =>
        if size <=? bm_size b then Ret ptr h
        else
          let* (new_ptr, h) := malloc size h in
          if new_ptr =? NULL then Ret NULL h
          else
            match meta h !! block_ptr with
            | None => Undef h
            | Some b =>
                let h := memcpy new_ptr ptr (bm_size b) h in
                let* (_, h) := free ptr h in
                Ret new_ptr h
            end
    end.

(** [calloc(nelem, elsize)]. *)
Definition calloc (nelem elsize : Z) (h : heap) : outcome Z :=
  if (0 <? nelem) && (SIZE_MAX / nelem <? elsize) then Ret NULL h
  else
    let size := size_t_of (nelem * elsize) in
    let* (ptr, h) := malloc size h in
    if negb (ptr =? NULL) then Ret ptr (memset ptr 0 size h)
    else Ret ptr h.

(** ** The chain and the state invariant *)

(** [chain m a l]: following [next] from [a] visits the records at the
    addresses [l], in this order, and then reaches [NULL]. *)
Inductive chain (m : gmap Z block_meta) : Z -> list Z -> Prop :=
| chain_end : chain m NULL []
| chain_step a b l :
    a <> NULL -> m !! a = Some b -> chain m (bm_next b) l -> chain m a (a :: l).

(** The test of the scan: the record is free and large enough. *)
Definition fits (size : Z) (b : block_meta) : Prop :=
  bm_free b <> 0 /\ size <= bm_size b.

(** The record at [a], if any, fails the test of the scan. *)
Definition nofit (h : heap) (size a : Z) : Prop :=
  forall b, meta h !! a = Some b -> ~ fits size b.

(** What every heap built by the allocator satisfies: [global_base] heads a
    chain that ends, every record lies below the break, not at [NULL], and
    records a positive size, and the break is a valid address within the
    kernel's bounds. *)
Record heap_ok (h : heap) : Prop := mk_heap_ok {
  ok_chain : exists l, chain (meta h) (global_base h) l;
  ok_below : forall a b, meta h !! a = Some b ->
             0 < a /\ a + META_SIZE <= brk h /\ 0 < bm_size b;
  ok_brk : 0 < brk h /\ heap_lo h <= brk h <= heap_hi h /\ heap_hi h < SBRK_FAILED
}.




(** The values of type [size_t]. *)
Definition is_size_t (z : Z) : Prop := 0 <= z <= SIZE_MAX.


(** One past the last payload byte of the record [b] at [a]. *)
Definition extent_end (a : Z) (b : block_meta) : Z :=
  a + META_SIZE + bm_size b.

(** Every record, payload included, lies below the break, and a record
    ends before the next one begins. *)
Definition extents_ok (h : heap) : Prop :=
  (forall a b, meta h !! a = Some b -> extent_end a b <= brk h) /\
  (forall a b a' b', meta h !! a = Some b -> meta h !! a' = Some b' ->
     a < a' -> extent_end a b <= a').

(** The record [request_space] writes. *)
Definition carved (size : Z) : block_meta :=
  mk_block_meta size NULL 0 MAGIC_CARVED.

(** The record in front of a region that is handed out: not free, and
    carrying one of the two markers [malloc] writes. *)
Definition live (b : block_meta) : Prop :=
  bm_free b = 0 /\ (bm_magic b = MAGIC_RECYCLED \/ bm_magic b = MAGIC_CARVED).

(** The store after a new record at [x] was linked behind the chain [l]. *)
Definition linked (m : gmap Z block_meta) (l : list Z) (x : Z)
  : gmap Z block_meta :=
  match last l with
  | Some t => alter (set_next x) t m
  | None => m
  end.

(** The two things a successful [malloc] can have done. *)
Inductive malloc_effect (size : Z) (h : heap) (p : Z) (h' : heap) : Prop :=
| effect_append l :
    0 < size ->
    chain (meta h) (global_base h) l ->
    Forall (nofit h size) l ->
    p = brk h + META_SIZE ->
    meta h !! brk h = None ->
    meta h' = <[brk h := carved size]> (linked (meta h) l (brk h)) ->
    global_base h' = (if global_base h =? NULL then brk h else global_base h) ->
    chain (meta h') (global_base h') (l ++ [brk h]) ->
    brk h' = brk h + intptr_of (size + META_SIZE) ->
    brk h + META_SIZE <= brk h' -> brk h' <= heap_hi h ->
    heap_lo h' = heap_lo h -> heap_hi h' = heap_hi h -> bytes h' = bytes h ->
    malloc_effect size h p h'
| effect_recycle l1 x l2 b :
    chain (meta h) (global_base h) (l1 ++ x :: l2) ->
    Forall (nofit h size) l1 ->
    meta h !! x = Some b -> fits size b ->
    p = x + META_SIZE ->
    h' = set_meta (<[x := set_free_magic 0 MAGIC_RECYCLED b]> (meta h))
                  (log (Ev_malloc size) h) ->
    malloc_effect size h p h'.

(** The stores a returning [malloc] can leave behind: the old one, the old
    one with a new record (linked behind [t], if there is a [t]), or the old
    one with the record at [x] marked as handed out again. *)
Inductive store_after (size : Z) (m : gmap Z block_meta)
  : gmap Z block_meta -> Prop :=
| store_same : store_after size m m
| store_first x : store_after size m (<[x := carved size]> m)
| store_link x t lb :
    m !! t = Some lb ->
    store_after size m (<[x := carved size]> (<[t := set_next x lb]> m))
| store_flip x b :
    m !! x = Some b ->
    store_after size m (<[x := set_free_magic 0 MAGIC_RECYCLED b]> m).

(** Heaps used as concrete inputs: a fresh process with 4096 bytes of room,
    and one whose break already sits at the kernel's bound. *)
Definition heap0 : heap := mk_heap 4096 4096 8192 NULL ∅ (fun _ => 0) [].
Definition heap_full : heap := mk_heap 4096 4096 4096 NULL ∅ (fun _ => 0) [].

(** A heap with room for exactly one record with 16 bytes of payload. *)
Definition heap_tight : heap := mk_heap 4096 4096 4136 NULL ∅ (fun _ => 0) [].

(** The heap an outcome leaves behind. *)
Definition after {A : Type} (o : outcome A) : heap :=
  match o with
  | Ret _ h | Abort h | Undef h => h
  | Diverge => heap0
  end.

(** [heap0] after [malloc(16)], which returns 4120. *)
Definition heap1 : heap := after (malloc 16 heap0).

(** [heap1] after a second [malloc(16)], which returns 4160. *)
Definition heap2 : heap := after (malloc 16 heap1).

(** [heap2] after [free(4120)]. *)
Definition heap3 : heap := after (free 4120 heap2).

(** ** Tactics *)

(** Turns the boolean tests of the C conditions in the context into
    propositions. *)
Ltac tests :=
  repeat match goal with
    | H : negb _ = true |- _ => apply negb_true_iff in H
    | H : negb _ = false |- _ => apply negb_false_iff in H
    | H : _ && _ = true |- _ => apply andb_true_iff in H as [? ?]
    | H : (_ =? _) = true |- _ => apply Z.eqb_eq in H
    | H : (_ =? _) = false |- _ => apply Z.eqb_neq in H
    | H : (_ <? _) = true |- _ => apply Z.ltb_lt in H
    | H : (_ <? _) = false |- _ => apply Z.ltb_ge in H
    | H : (_ <=? _) = true |- _ => apply Z.leb_le in H
    | H : (_ <=? _) = false |- _ => apply Z.leb_gt in H
    end.

(** Arithmetic on addresses, with the constants of the C file unfolded. *)
Ltac addr := unfold META_SIZE, NULL in *; simpl in *; lia.

(** ** Facts about chains *)

Lemma chain_lookup m a l x :
  chain m a l -> x ∈ l -> x <> NULL /\ is_Some (m !! x).
Proof.
  induction 1 as [|a b l Ha Hb Hc IH]; intros Hx.
  - by apply elem_of_nil in Hx.
  - apply elem_of_cons in Hx as [->|Hx]; eauto.
Qed.

Lemma chain_functional m a l1 l2 : chain m a l1 -> chain m a l2 -> l1 = l2.
Proof.
  intros H; revert l2.
  induction H as [|a b l Ha Hb Hc IH]; intros l2 H2; inversion H2; subst;
    try done.
  f_equal. apply IH. congruence.
Qed.

Lemma chain_suffix m a l1 x l2 :
  chain m a (l1 ++ x :: l2) -> chain m x (x :: l2).
Proof.
  revert a. induction l1 as [|y l1 IH]; intros a H; simpl in H.
  - inversion H; subst. econstructor; eauto.
  - inversion H; subst. eauto.
Qed.

Lemma chain_NoDup m a l : chain m a l -> NoDup l.
Proof.
  induction 1 as [|a b l Ha Hb Hc IH]; constructor; [|done].
  intros Hin. apply list_elem_of_split in Hin as (l1 & l2 & ->).
  assert (H1 : chain m a (a :: l1 ++ a :: l2)) by (econstructor; eauto).
  pose proof (chain_suffix _ _ _ _ _ Hc) as H2.
  pose proof (chain_functional _ _ _ _ H1 H2) as Heq.
  apply (f_equal length) in Heq. simpl in Heq. rewrite length_app in Heq.
  simpl in Heq. lia.
Qed.

Lemma chain_length m a l : chain m a l -> (length l <= base.size m)%nat.
Proof.
  intros H.
  rewrite <- (size_list_to_set (C := gset Z) l) by eauto using chain_NoDup.
  rewrite <- size_dom. apply subseteq_size.
  intros x Hx. apply elem_of_list_to_set in Hx.
  apply elem_of_dom. by eapply chain_lookup.
Qed.

(** Changing fields other than [next] leaves the chain as it is. *)
Lemma chain_same_next m m' a l :
  (forall x b, x ∈ l -> m !! x = Some b ->
     exists b', m' !! x = Some b' /\ bm_next b' = bm_next b) ->
  chain m a l -> chain m' a l.
Proof.
  intros Hm H. induction H as [|a b l Ha Hb Hc IH]; [constructor|].
  destruct (Hm a b) as (b' & Hb' & Hn); [left|done|].
  econstructor; eauto. rewrite Hn. apply IH.
  intros x bx Hx. apply Hm. by right.
Qed.

(** So does overwriting a record with one that has the same [next]. *)
Lemma chain_insert m a l x b b' :
  m !! x = Some b -> bm_next b' = bm_next b ->
  chain m a l -> chain (<[x := b']> m) a l.
Proof.
  intros Hb Hn. apply chain_same_next.
  intros y c _ Hy. rewrite lookup_insert. case_decide; [|by eauto].
  subst. assert (c = b) as -> by congruence. by eexists.
Qed.

(** Linking a new record behind the last one extends the chain by it. *)
Lemma chain_snoc m a l t bt x bx :
  chain m a l -> last l = Some t -> m !! t = Some bt ->
  x <> NULL -> x ∉ l -> bm_next bx = NULL ->
  chain (<[x := bx]> (<[t := set_next x bt]> m)) a (l ++ [x]).
Proof.
  intros H. induction H as [|a b l Ha Hb Hc IH]; intros Hl Ht Hx Hnin Hbx.
  - done.
  - assert (Hax : a <> x) by (intros ->; apply Hnin; left).
    assert (Hxl : x ∉ l) by (intros ?; apply Hnin; by right).
    pose proof (chain_NoDup _ _ _ (chain_step _ _ _ _ Ha Hb Hc)) as Hnd.
    apply NoDup_cons in Hnd as [Hal _].
    destruct l as [|y l].
    + simpl in Hl. injection Hl as <-. rewrite Hb in Ht. injection Ht as <-.
      inversion Hc; subst. simpl.
      econstructor; [done| |].
      * rewrite lookup_insert_ne by done. by rewrite lookup_insert_eq.
      * simpl. econstructor; [done|by rewrite lookup_insert_eq|].
        rewrite Hbx. constructor.
    + assert (Hat : a <> t).
      { intros ->. apply Hal. apply last_Some_elem_of. by rewrite last_cons_cons in Hl. }
      rewrite last_cons_cons in Hl.
      simpl. econstructor; [done| |].
      * rewrite !lookup_insert_ne by done. done.
      * by apply IH.
Qed.

Lemma last_default {A} (l : list A) (a d : A) :
  List.last (a :: l) d = List.last l a.
Proof.
  revert a d. induction l as [|y l IH]; intros a d; [done|].
  change (List.last (a :: y :: l) d) with (List.last (y :: l) d).
  by rewrite !IH.
Qed.

Lemma last_default_Some {A} (l : list A) (d t : A) :
  last l = Some t -> List.last l d = t.
Proof.
  revert d. induction l as [|y l IH]; intros d; [done|].
  destruct l as [|z l]; [by intros [= ->]|].
  rewrite last_cons_cons. intros H.
  change (List.last (y :: z :: l) d) with (List.last (z :: l) d). by apply IH.
Qed.

(** ** The scan *)

Lemma fits_test size b :
  negb (bm_free b =? 0) && (size <=? bm_size b) = true <-> fits size b.
Proof.
  unfold fits. rewrite andb_true_iff, negb_true_iff, Z.eqb_neq, Z.leb_le. done.
Qed.

Lemma nofit_test h size a b :
  meta h !! a = Some b -> nofit h size a ->
  negb (bm_free b =? 0) && (size <=? bm_size b) = false.
Proof.
  intros Hb Hn. apply not_true_is_false. rewrite fits_test. by apply Hn.
Qed.

(** The scan stops at the first record that passes the test. *)
Lemma find_free_loop_found h size l1 : forall fuel a last x l2 b,
  chain (meta h) a (l1 ++ x :: l2) -> Forall (nofit h size) l1 ->
  meta h !! x = Some b -> fits size b -> (length l1 < fuel)%nat ->
  find_free_loop fuel size a last h = Ret (x, List.last l1 last) h.
Proof.
  induction l1 as [|y l1 IH]; intros fuel a last x l2 b Hc Hn Hb Hf Hfuel;
    (destruct fuel as [|fuel]; [simpl in Hfuel; lia|]);
    simpl in Hc; inversion Hc as [|? by' ? Ha Hby Hc']; subst;
    cbn [find_free_loop].
  - apply Z.eqb_neq in Ha. rewrite Ha, Hby.
    assert (by' = b) as -> by congruence.
    apply fits_test in Hf. by rewrite Hf.
  - apply Forall_cons in Hn as [Hy Hn].
    apply Z.eqb_neq in Ha. rewrite Ha, Hby.
    rewrite (nofit_test _ _ _ _ Hby Hy).
    rewrite last_default. eapply IH; eauto. simpl in Hfuel. lia.
Qed.

(** When no record passes the test the scan ends at [NULL], with [last] on
    the last record of the chain. *)
Lemma find_free_loop_none h size l : forall fuel a last,
  chain (meta h) a l -> Forall (nofit h size) l -> (length l < fuel)%nat ->
  find_free_loop fuel size a last h = Ret (NULL, List.last l last) h.
Proof.
  induction l as [|y l IH]; intros fuel a last Hc Hn Hfuel;
    (destruct fuel as [|fuel]; [simpl in Hfuel; lia|]);
    inversion Hc as [|? by' ? Ha Hby Hc']; subst.
  - done.
  - apply Forall_cons in Hn as [Hy Hn]. cbn [find_free_loop].
    apply Z.eqb_neq in Ha. rewrite Ha, Hby.
    rewrite (nofit_test _ _ _ _ Hby Hy).
    rewrite last_default. eapply IH; eauto. simpl in Hfuel. lia.
Qed.

Lemma first_fit_split h size l :
  Forall (nofit h size) l \/
  exists l1 x l2 b, l = l1 ++ x :: l2 /\ Forall (nofit h size) l1 /\
                    meta h !! x = Some b /\ fits size b.
Proof.
  induction l as [|y l IH]; [by left|].
  destruct (meta h !! y) as [b|] eqn:Hb.
  - destruct (negb (bm_free b =? 0) && (size <=? bm_size b)) eqn:Ht.
    + right. exists [], y, l, b. apply fits_test in Ht. done.
    + assert (Hy : nofit h size y).
      { intros b' Hb' Hf. apply fits_test in Hf. congruence. }
      destruct IH as [IH|(l1 & x & l2 & bx & -> & Hn & Hx & Hf)].
      * left. by constructor.
      * right. exists (y :: l1), x, l2, bx. split_and!; try done. by constructor.
  - assert (Hy : nofit h size y) by (intros b' Hb'; congruence).
    destruct IH as [IH|(l1 & x & l2 & bx & -> & Hn & Hx & Hf)].
    * left. by constructor.
    * right. exists (y :: l1), x, l2, bx. split_and!; try done. by constructor.
Qed.

(** ** The bound on the scan is exact *)

Section Fuel.

Variables (h : heap) (size : Z).

(** The loop ends exactly when it steps over fewer records than it has
    fuel. *)
Lemma find_free_loop_ends fuel : forall current last,
  find_free_loop fuel size current last h <> Diverge <->
  (length (skipped fuel size current h) < fuel)%nat.
Proof.
  induction fuel as [|fuel IH]; intros current last; simpl; [split; [done|lia]|].
  repeat case_match; simpl; rewrite ?IH; split; (done || lia).
Qed.

(** A loop that ends does the same with any other amount of fuel with which
    it ends. *)
Lemma skipped_fuel fuel : forall fuel' current,
  (length (skipped fuel size current h) < fuel)%nat ->
  (length (skipped fuel size current h) < fuel')%nat ->
  skipped fuel' size current h = skipped fuel size current h.
Proof.
  induction fuel as [|fuel IH]; intros fuel' current; [lia|].
  destruct fuel' as [|fuel']; [lia|]. simpl.
  repeat case_match; simpl; try done.
  intros Hlen Hlen'. f_equal. apply IH; lia.
Qed.

Lemma find_free_loop_fuel fuel : forall fuel' current last,
  (length (skipped fuel size current h) < fuel)%nat ->
  (length (skipped fuel size current h) < fuel')%nat ->
  find_free_loop fuel' size current last h =
  find_free_loop fuel size current last h.
Proof.
  induction fuel as [|fuel IH]; intros fuel' current last; [lia|].
  destruct fuel' as [|fuel']; [lia|]. simpl.
  repeat case_match; simpl; try done.
  intros Hlen Hlen'. apply IH; lia.
Qed.

Lemma skipped_lookup fuel : forall current x,
  x ∈ skipped fuel size current h -> is_Some (meta h !! x).
Proof.
  induction fuel as [|fuel IH]; intros current x; simpl;
    [by intros ?%elem_of_nil|].
  repeat case_match; try by intros ?%elem_of_nil.
  intros [->|Hx]%elem_of_cons; eauto.
Qed.

(** From a record that is stepped over, the loop ends as well, and steps
    over no more records than the whole loop does. *)
Lemma skipped_from fuel : forall current x,
  (length (skipped fuel size current h) < fuel)%nat ->
  x ∈ skipped fuel size current h ->
  exists fuel0,
    (length (skipped fuel0 size x h) < fuel0)%nat /\
    (length (skipped fuel0 size x h) <= length (skipped fuel size current h))%nat.
Proof.
  induction fuel as [|fuel IH]; intros current x Hlen Hx; [simpl in Hlen; lia|].
  destruct (decide (x = current)) as [->|Hne]; [by exists (S fuel)|].
  simpl in *. repeat case_match; try by apply elem_of_nil in Hx.
  apply elem_of_cons in Hx as [->|Hx]; [done|]. simpl in Hlen.
  edestruct IH as (fuel0 & Hend & Hle); [|exact Hx|]; [lia|].
  exists fuel0. simpl. split; [done|lia].
Qed.

(** A loop that ends steps over no record twice. *)
Lemma skipped_NoDup fuel : forall current,
  (length (skipped fuel size current h) < fuel)%nat ->
  NoDup (skipped fuel size current h).
Proof.
  induction fuel as [|fuel IH]; intros current Hlen; [simpl in Hlen; lia|].
  destruct (skipped (S fuel) size current h) as [|x l] eqn:Hs;
    [apply NoDup_nil_2|].
  simpl in Hs. repeat case_match; simplify_eq. simpl in Hlen.
  apply NoDup_cons_2; [|apply IH; lia].
  intros Hin. apply skipped_from in Hin as (fuel0 & Hend & Hle); [|lia].
  pose proof (skipped_fuel fuel0 (S fuel) x Hend ltac:(lia)) as E.
  apply (f_equal length) in E. simpl in E.
  repeat case_match; simplify_eq; simpl in E; lia.
Qed.

(** Hence it steps over at most as many records as the store holds, and
    [find_free_block] has all the fuel such a loop needs. *)
Lemma find_free_loop_bound fuel current last :
  find_free_loop fuel size current last h <> Diverge ->
  find_free_loop (S (base.size (meta h))) size current last h =
  find_free_loop fuel size current last h.
Proof.
  intros Hlen%find_free_loop_ends. apply find_free_loop_fuel; [done|].
  apply Nat.lt_succ_r.
  rewrite <- (size_list_to_set (C := gset Z)) by by apply skipped_NoDup.
  rewrite <- size_dom. apply subseteq_size.
  intros x Hx%elem_of_list_to_set. apply elem_of_dom. by eapply skipped_lookup.
Qed.

End Fuel.

(** [find_free_block] does not end only if the loop of the C function does
    not end, however long it runs. *)
Lemma find_free_block_diverges last size h :
  find_free_block last size h = Diverge ->
  forall fuel, find_free_loop fuel size (global_base h) last h = Diverge.
Proof.
  intros Hd fuel.
  destruct (find_free_loop fuel size (global_base h) last h) eqn:E; [..|done];
    unfold find_free_block in Hd;
    rewrite (find_free_loop_bound h size fuel) in Hd by (by rewrite E); congruence.
Qed.

(** ** [request_space] *)

(** What a successful [request_space] has done. *)
Lemma request_space_Ret last size h block h' :
  request_space last size h = Ret block h' -> block <> NULL ->
  block = brk h /\ brk h' = brk h + intptr_of (size + META_SIZE) /\
  brk h + META_SIZE <= brk h' /\ brk h' <= heap_hi h /\
  heap_lo h' = heap_lo h /\ heap_hi h' = heap_hi h /\
  global_base h' = global_base h /\ bytes h' = bytes h /\
  calls h' = Ev_sbrk (intptr_of (size + META_SIZE)) :: Ev_sbrk 0 :: calls h /\
  exists m1, meta h' = <[block := carved size]> m1 /\
    ((last = NULL /\ m1 = meta h) \/
     (last <> NULL /\ exists lb, meta h !! last = Some lb /\
                                 m1 = <[last := set_next block lb]> (meta h))).
Proof.
  unfold request_space, sbrk. cbn [Z.eqb]. intros H Hnz.
  repeat (case_match; simplify_eq/=); try lia.
  all: tests; simpl in *; try (unfold META_SIZE in *; lia).
  all: split_and!; try done; try lia.
  all: eexists; split; [reflexivity|]; eauto.
Qed.

(** ** [malloc] *)

(** A scan that finds a record: [malloc] hands that record out again. *)
Lemma malloc_recycle h size l1 x l2 b :
  0 < size ->
  chain (meta h) (global_base h) (l1 ++ x :: l2) ->
  Forall (nofit h size) l1 -> meta h !! x = Some b -> fits size b ->
  malloc size h =
    Ret (x + META_SIZE)
        (set_meta (<[x := set_free_magic 0 MAGIC_RECYCLED b]> (meta h))
                  (log (Ev_malloc size) h)).
Proof.
  intros Hsz Hc Hn Hb Hf. unfold malloc.
  assert (Hx : x <> NULL /\ is_Some (meta h !! x)).
  { eapply chain_lookup; [done|]. apply elem_of_app. right. left. }
  assert (Hg : global_base h <> NULL).
  { destruct l1; inversion Hc; subst; done. }
  apply Z.leb_gt in Hsz. rewrite Hsz. cbn [global_base log].
  apply Z.eqb_neq in Hg. rewrite Hg.
  unfold find_free_block. cbn [global_base meta log].
  erewrite (find_free_loop_found (log (Ev_malloc size) h) size l1); eauto.
  - cbn [bind]. destruct Hx as [Hx _]. apply Z.eqb_neq in Hx. rewrite Hx.
    cbn [meta log]. by rewrite Hb.
  - apply chain_length in Hc. rewrite length_app in Hc. simpl in Hc. lia.
Qed.

(** A scan that finds none: [malloc] asks [request_space] for a record
    behind the last one of the chain. *)
Lemma malloc_grow h size l :
  0 < size ->
  chain (meta h) (global_base h) l -> Forall (nofit h size) l ->
  malloc size h =
    let* (block, h') :=
      request_space (List.last l NULL) size (log (Ev_malloc size) h) in
    if block =? NULL then Ret NULL h'
    else Ret (block + META_SIZE)
             (if global_base h =? NULL then set_global_base block h' else h').
Proof.
  intros Hsz Hc Hn. unfold malloc.
  apply Z.leb_gt in Hsz. rewrite Hsz. cbn [global_base log].
  destruct l as [|y l].
  - assert (Hg : global_base h = NULL) by (by inversion Hc).
    rewrite Hg. done.
  - assert (Hg : global_base h <> NULL) by (inversion Hc; subst; done).
    apply Z.eqb_neq in Hg. rewrite Hg.
    unfold find_free_block. cbn [global_base meta log].
    erewrite (find_free_loop_none (log (Ev_malloc size) h) size (y :: l)); eauto.
    + cbn [bind]. rewrite Z.eqb_refl.
      assert (global_base h = y) as -> by (inversion Hc; subst; done).
      rewrite !last_default. done.
    + apply chain_length in Hc. lia.
Qed.

Lemma insert_set_next (m : gmap Z block_meta) t x lb :
  m !! t = Some lb -> <[t := set_next x lb]> m = alter (set_next x) t m.
Proof.
  intros Ht. apply map_eq. intros i.
  rewrite lookup_insert, lookup_alter. case_decide; subst; [by rewrite Ht|done].
Qed.

Lemma malloc_Ret size h p h' :
  heap_ok h -> malloc size h = Ret p h' -> p <> NULL ->
  malloc_effect size h p h'.
Proof.
  intros [[l Hc] Hbelow Hbrk] Hm Hp.
  assert (Hsz : 0 < size).
  { unfold malloc in Hm. destruct (size <=? 0) eqn:E; [by simplify_eq|].
    by apply Z.leb_gt in E. }
  destruct (first_fit_split h size l) as [Hn|(l1 & x & l2 & b & -> & Hn & Hb & Hf)].
  - rewrite (malloc_grow h size l Hsz Hc Hn) in Hm.
    destruct (request_space _ _ _) as [block h1| | |] eqn:Hr; try done.
    cbn [bind] in Hm.
    destruct (block =? NULL) eqn:Hbn; [by simplify_eq|].
    apply Z.eqb_neq in Hbn. injection Hm as <- <-.
    apply request_space_Ret in Hr
      as (-> & Hbrk' & Hgrow & Hhi & Hlo' & Hhi' & Hgb & Hby & Hcalls & m1 & Hm1 & Hlink);
      [|done].
    cbn [brk log heap_lo heap_hi global_base meta bytes calls] in *.
    assert (Hfresh : meta h !! brk h = None).
    { destruct (meta h !! brk h) as [b|] eqn:E; [|done].
      apply Hbelow in E. addr. }
    assert (Hm1' : m1 = linked (meta h) l (brk h)).
    { unfold linked. destruct Hlink as [[Hl ->]|(Hl & lb & Hlb & ->)].
      - destruct l as [|y l]; [done|]. exfalso.
        destruct (last (y :: l)) as [t|] eqn:Ht.
        + pose proof (last_default_Some _ NULL _ Ht) as E.
          apply last_Some_elem_of in Ht.
          eapply chain_lookup in Ht as [Hne _]; [|done]. congruence.
        + by apply last_None in Ht.
      - destruct (last l) as [t|] eqn:Ht.
        + rewrite (last_default_Some _ NULL _ Ht) in *. by apply insert_set_next.
        + apply last_None in Ht. by subst. }
    subst m1.
    set (h2 := if global_base h =? NULL then set_global_base (brk h) h1 else h1).
    assert (Hmeta2 : meta h2 = meta h1) by (subst h2; by case_match).
    assert (Hbrk2 : brk h2 = brk h1) by (subst h2; by case_match).
    assert (Hhi2 : heap_hi h2 = heap_hi h1) by (subst h2; by case_match).
    assert (Hlo2 : heap_lo h2 = heap_lo h1) by (subst h2; by case_match).
    assert (Hby2 : bytes h2 = bytes h1) by (subst h2; by case_match).
    assert (Hgb2 : global_base h2 =
                   if global_base h =? NULL then brk h else global_base h).
    { subst h2. by case_match. }
    apply (effect_append _ _ _ _ l); try done; try congruence; try lia.
    rewrite Hmeta2, Hgb2, Hm1. unfold linked.
    destruct (global_base h =? NULL) eqn:Hg0.
    + apply Z.eqb_eq in Hg0. rewrite Hg0 in Hc. inversion Hc; subst; [|done].
      simpl. econstructor; [lia|by rewrite lookup_insert_eq|constructor].
    + destruct (last l) as [t|] eqn:Ht.
      * apply last_Some_elem_of in Ht as Hin.
        eapply chain_lookup in Hin as [_ [bt Hbt]]; [|done].
        rewrite <- (insert_set_next _ _ _ _ Hbt).
        eapply chain_snoc; eauto.
        intros Hin. eapply chain_lookup in Hin as [_ [? ?]]; [|done]. congruence.
      * apply last_None in Ht. subst. inversion Hc. apply Z.eqb_neq in Hg0. done.
  - rewrite (malloc_recycle h size l1 x l2 b Hsz Hc Hn Hb Hf) in Hm.
    injection Hm as <- <-. by eapply effect_recycle.
Qed.

(** ** What the functions do to the store, in any heap *)

Lemma find_free_loop_heap fuel : forall size current last h r h',
  find_free_loop fuel size current last h = Ret r h' -> h' = h.
Proof.
  induction fuel as [|fuel IH]; intros size current last h r h' H; [done|].
  cbn [find_free_loop] in H. repeat case_match; simplify_eq; eauto.
Qed.

Lemma request_space_shape last size h block h' :
  request_space last size h = Ret block h' ->
  store_after size (meta h) (meta h') /\
  calls h' = Ev_sbrk (intptr_of (size + META_SIZE)) :: Ev_sbrk 0 :: calls h.
Proof.
  unfold request_space, sbrk. intros H.
  repeat (case_match; simplify_eq/=); split; try done;
    first [apply store_same | apply store_first | by apply store_link].
Qed.

Lemma malloc_shape size h p h' :
  malloc size h = Ret p h' ->
  store_after size (meta h) (meta h') /\
  exists evs, calls h' = evs ++ Ev_malloc size :: calls h.
Proof.
  unfold malloc, find_free_block. intros H.
  destruct (size <=? 0); [simplify_eq; split; [constructor|by exists []]|].
  cbn [global_base meta log] in H.
  destruct (global_base h =? NULL).
  - destruct (request_space _ _ _) as [block h1| | |] eqn:Hr; try done.
    apply request_space_shape in Hr as [Hs Hc]. cbn [bind] in H.
    assert (meta h' = meta h1 /\ calls h' = calls h1) as [-> ->].
    { by case_match; simplify_eq. }
    split; [done|]. rewrite Hc. by exists [Ev_sbrk (intptr_of (size + META_SIZE)); Ev_sbrk 0].
  - destruct (find_free_loop _ _ _ _ _) as [[block last] h1| | |] eqn:Hl; try done.
    apply find_free_loop_heap in Hl as ->. cbn [bind] in H.
    destruct (block =? NULL).
    + destruct (request_space _ _ _) as [block' h1| | |] eqn:Hr; try done.
      apply request_space_shape in Hr as [Hs Hc]. cbn [bind] in H.
      assert (meta h' = meta h1 /\ calls h' = calls h1) as [-> ->].
      { by case_match; simplify_eq. }
      split; [done|]. rewrite Hc.
      by exists [Ev_sbrk (intptr_of (size + META_SIZE)); Ev_sbrk 0].
    + cbn [meta log] in H. destruct (meta h !! block) as [b|] eqn:Hb; [|done].
      simplify_eq. split; [by apply store_flip|by exists []].
Qed.

(** ** The marker invariant *)











(** ** The state invariant is kept *)

Lemma request_space_NULL last size h h' :
  request_space last size h = Ret NULL h' ->
  brk h = NULL \/ brk h = SBRK_FAILED.
Proof.
  unfold request_space, sbrk. intros H.
  repeat (case_match; simplify_eq/=); auto; tests; auto.
Qed.

(** In a heap that satisfies the invariant, [malloc] returns [NULL] only
    through its guard, and otherwise has one of its two effects. *)
Lemma malloc_cases size h p h' :
  heap_ok h -> malloc size h = Ret p h' ->
  (p = NULL /\ size <= 0 /\ h' = log (Ev_malloc size) h) \/
  (p <> NULL /\ malloc_effect size h p h').
Proof.
  intros Hok Hm. destruct (decide (p = NULL)) as [->|Hp].
  2: { right. split; [done|]. by apply malloc_Ret. }
  left. split; [done|].
  destruct (decide (size <= 0)) as [Hsz|Hsz].
  { unfold malloc in Hm. apply Z.leb_le in Hsz. rewrite Hsz in Hm.
    apply Z.leb_le in Hsz. by simplify_eq. }
  exfalso. destruct Hok as [[l Hc] Hbelow Hbrk].
  destruct (first_fit_split h size l) as [Hn|(l1 & x & l2 & b & -> & Hn & Hb & Hf)].
  - rewrite (malloc_grow h size l) in Hm by (done || lia).
    destruct (request_space _ _ _) as [block h1| | |] eqn:Hr; try done.
    cbn [bind] in Hm. destruct (block =? NULL) eqn:Hbn.
    + apply Z.eqb_eq in Hbn as ->. apply request_space_NULL in Hr.
      cbn [brk log] in Hr. addr.
    + apply Z.eqb_neq in Hbn.
      apply request_space_Ret in Hr as (-> & _); [|done].
      cbn [brk log] in *. simplify_eq. addr.
  - rewrite (malloc_recycle h size l1 x l2 b) in Hm by (done || lia).
    apply Hbelow in Hb. simplify_eq. addr.
Qed.

Lemma linked_lookup (m : gmap Z block_meta) l x a b :
  linked m l x !! a = Some b ->
  exists b0, m !! a = Some b0 /\
    (b = b0 \/ (last l = Some a /\ b = set_next x b0)).
Proof.
  unfold linked. destruct (last l) as [t|]; [|by eauto].
  rewrite lookup_alter. case_decide; [|by eauto]. subst.
  destruct (m !! a) as [b0|]; [|done]. intros [= <-]. eauto.
Qed.

Lemma heap_ok_log e h : heap_ok h -> heap_ok (log e h).
Proof. intros [? ? ?]. by constructor. Qed.

Lemma malloc_heap_ok size h p h' :
  heap_ok h -> malloc size h = Ret p h' -> heap_ok h'.
Proof.
  intros Hok Hm.
  destruct (malloc_cases _ _ _ _ Hok Hm) as [(_ & _ & ->)|[_ He]];
    [by apply heap_ok_log|].
  destruct Hok as [_ Hbelow Hbrk].
  destruct He as [l Hsz0 Hc Hn -> Hfresh Hmeta Hgb Hc' Hbrk' Hgrow Hhi Hlo' Hhi' Hby
                 |l1 x l2 b Hc Hn Hb Hf -> ->].
  - constructor; [by eauto| |addr].
    intros a b. rewrite Hmeta, lookup_insert. case_decide.
    + intros [= <-]. subst. addr.
    + intros (b0 & Hb0 & Hbb)%linked_lookup. apply Hbelow in Hb0.
      assert (bm_size b = bm_size b0) as -> by (by destruct Hbb as [->|[_ ->]]).
      addr.
  - constructor; cbn [meta global_base brk heap_hi set_meta log]; [|
    |done].
    + exists (l1 ++ x :: l2). by eapply chain_insert.
    + intros a c. rewrite lookup_insert. case_decide; [|by apply Hbelow].
      subst. intros [= <-]. simpl. by apply (Hbelow _ _ Hb).
Qed.







Lemma heap0_ok : heap_ok heap0.
Proof.
  constructor.
  - exists []. constructor.
  - intros a b. unfold heap0. cbn [meta]. by rewrite lookup_empty.
  - by vm_compute.
Qed.

(** ** Success and failure of the growth path *)

Lemma intptr_of_small z : 0 <= z < 2 ^ 63 -> intptr_of z = z.
Proof.
  intros Hz. unfold intptr_of. rewrite Z.mod_small by lia.
  destruct (z <? 2 ^ 63) eqn:E; [done|]. apply Z.ltb_ge in E. lia.
Qed.

(** With room below the kernel's bound, [request_space] returns the old
    break. *)
Lemma request_space_success last size h :
  0 < brk h -> brk h <> SBRK_FAILED ->
  0 < size -> size + META_SIZE < 2 ^ 63 ->
  heap_lo h <= brk h -> brk h + size + META_SIZE <= heap_hi h ->
  last = NULL \/ is_Some (meta h !! last) ->
  exists h', request_space last size h = Ret (brk h) h'.
Proof.
  intros Hpos Hnf Hsz Hov Hlo Hhi Hlast.
  unfold request_space, sbrk. cbn [Z.eqb brk log heap_lo heap_hi].
  rewrite intptr_of_small by (unfold META_SIZE in *; lia).
  replace (size + META_SIZE =? 0) with false
    by (symmetry; apply Z.eqb_neq; unfold META_SIZE; lia).
  replace (heap_lo h <=? brk h + (size + META_SIZE)) with true
    by (symmetry; apply Z.leb_le; unfold META_SIZE; lia).
  replace (brk h + (size + META_SIZE) <=? heap_hi h) with true
    by (symmetry; apply Z.leb_le; lia).
  cbn [andb brk set_brk log]. rewrite Z.eqb_refl. cbn [negb].
  apply Z.eqb_neq in Hnf. rewrite Hnf.
  replace (brk h + (size + META_SIZE) <? brk h + META_SIZE) with false
    by (symmetry; apply Z.ltb_ge; lia).
  cbn [meta set_brk log].
  destruct Hlast as [->|[lb Hlb]]; [by eexists|].
  destruct (last =? NULL); [by eexists|]. rewrite Hlb. by eexists.
Qed.

(** When [sbrk] refuses, [request_space] dies in its [assert]: the test for
    the sentinel comes one statement too late. *)
Lemma request_space_sbrk_fails last size h :
  brk h <> SBRK_FAILED ->
  0 < size -> size + META_SIZE < 2 ^ 63 ->
  heap_hi h < brk h + size + META_SIZE ->
  request_space last size h =
    Abort (log (Ev_sbrk (size + META_SIZE)) (log (Ev_sbrk 0) h)).
Proof.
  intros Hnf Hsz Hov Hhi.
  unfold request_space, sbrk. cbn [Z.eqb brk log heap_lo heap_hi].
  rewrite intptr_of_small by (unfold META_SIZE in *; lia).
  replace (size + META_SIZE =? 0) with false
    by (symmetry; apply Z.eqb_neq; unfold META_SIZE; lia).
  replace (brk h + (size + META_SIZE) <=? heap_hi h) with false
    by (symmetry; apply Z.leb_gt; lia).
  rewrite andb_false_r. apply Z.eqb_neq in Hnf. by rewrite Hnf.
Qed.

(** So does [malloc], whenever it has to grow the heap and cannot. *)
Lemma malloc_sbrk_fails size h l :
  heap_ok h -> 0 < size -> size + META_SIZE < 2 ^ 63 ->
  chain (meta h) (global_base h) l -> Forall (nofit h size) l ->
  heap_hi h < brk h + size + META_SIZE ->
  malloc size h =
    Abort (log (Ev_sbrk (size + META_SIZE))
               (log (Ev_sbrk 0) (log (Ev_malloc size) h))).
Proof.
  intros [_ _ Hbrk] Hsz Hov Hc Hn Hhi.
  rewrite (malloc_grow h size l) by done.
  rewrite request_space_sbrk_fails; [done|cbn [brk log]; lia|done..].
Qed.

(** With room below the kernel's bound, [malloc] returns a region. *)
Lemma malloc_succeeds size h :
  heap_ok h -> 0 < size -> size + META_SIZE < 2 ^ 63 ->
  brk h + size + META_SIZE <= heap_hi h ->
  exists p h', malloc size h = Ret p h' /\ p <> NULL.
Proof.
  intros [[l Hc] Hbelow Hbrk] Hsz Hov Hhi.
  destruct (first_fit_split h size l) as [Hn|(l1 & x & l2 & b & -> & Hn & Hb & Hf)].
  - rewrite (malloc_grow h size l) by done.
    destruct (request_space_success (List.last l NULL) size (log (Ev_malloc size) h))
      as [h' Hr]; cbn [brk log heap_lo heap_hi meta]; try lia.
    { destruct (last l) as [t|] eqn:Ht.
      - right. rewrite (last_default_Some _ NULL _ Ht).
        apply last_Some_elem_of in Ht. by eapply chain_lookup.
      - apply last_None in Ht. subst. by left. }
    rewrite Hr. cbn [bind brk log].
    replace (brk h =? NULL) with false by (symmetry; apply Z.eqb_neq; unfold NULL; lia).
    do 2 eexists. split; [done|]. addr.
  - rewrite (malloc_recycle h size l1 x l2 b) by done.
    do 2 eexists. split; [done|]. apply Hbelow in Hb. addr.
Qed.

(** ** Live records *)

Lemma get_block_ptr_add x : get_block_ptr (x + META_SIZE) = x.
Proof. unfold get_block_ptr. lia. Qed.

(** The region [malloc] returns has a live record of at least the requested
    size in front of it, and that record is on the chain. *)
Lemma malloc_live size h p h' :
  heap_ok h -> malloc size h = Ret p h' -> p <> NULL ->
  exists b l, meta h' !! get_block_ptr p = Some b /\ live b /\
    size <= bm_size b /\
    chain (meta h') (global_base h') l /\ get_block_ptr p ∈ l.
Proof.
  intros Hok Hm Hp.
  destruct (malloc_Ret _ _ _ _ Hok Hm Hp)
    as [l Hsz0 Hc Hn -> Hfresh Hmeta Hgb Hcn Hbrk' Hgrow Hhi Hlo' Hhi' Hby
       |l1 x l2 b Hc Hn Hb Hf -> ->]; rewrite get_block_ptr_add.
  - exists (carved size), (l ++ [brk h]). split_and!.
    + by rewrite Hmeta, lookup_insert_eq.
    + split; [done|by right].
    + simpl. lia.
    + done.
    + apply elem_of_app. right. left.
  - exists (set_free_magic 0 MAGIC_RECYCLED b), (l1 ++ x :: l2).
    cbn [meta global_base set_meta log]. split_and!.
    + by rewrite lookup_insert_eq.
    + split; [done|by left].
    + by destruct Hf.
    + by eapply chain_insert.
    + apply elem_of_app. right. left.
Qed.

Lemma free_live ptr h b :
  ptr <> NULL -> meta h !! get_block_ptr ptr = Some b -> live b ->
  free ptr h =
    Ret tt (set_meta (<[get_block_ptr ptr := set_free_magic 1 MAGIC_RELEASED b]>
                        (meta h)) h).
Proof.
  intros Hp Hb [Hf Hm]. unfold free.
  apply Z.eqb_neq in Hp. rewrite Hp, Hb, Hf. cbn [Z.eqb negb].
  by destruct Hm as [-> | ->].
Qed.

(** The record [malloc] hands out was absent or free before the call. *)
Lemma malloc_takes_free size h p h' b :
  heap_ok h -> malloc size h = Ret p h' -> p <> NULL ->
  meta h !! get_block_ptr p = Some b -> bm_free b <> 0.
Proof.
  intros Hok Hm Hp Hb.
  destruct (malloc_Ret _ _ _ _ Hok Hm Hp)
    as [l Hsz0 Hc Hn -> Hfresh Hmeta Hgb Hcn Hbrk' Hgrow Hhi Hlo' Hhi' Hby
       |l1 x l2 b' Hc Hn Hb' Hf -> ->]; rewrite get_block_ptr_add in Hb.
  - congruence.
  - assert (b = b') as -> by congruence. by destruct Hf.
Qed.

(** Every other record keeps its size, its free flag and its marker. *)
Lemma malloc_others size h p h' a b :
  heap_ok h -> malloc size h = Ret p h' -> p <> NULL ->
  meta h !! a = Some b -> a <> get_block_ptr p ->
  exists b', meta h' !! a = Some b' /\ bm_size b' = bm_size b /\
             bm_free b' = bm_free b /\ bm_magic b' = bm_magic b.
Proof.
  intros Hok Hm Hp Hb Ha.
  destruct (malloc_Ret _ _ _ _ Hok Hm Hp)
    as [l Hsz0 Hc Hn -> Hfresh Hmeta Hgb Hcn Hbrk' Hgrow Hhi Hlo' Hhi' Hby
       |l1 x l2 b' Hc Hn Hb' Hf -> ->]; rewrite get_block_ptr_add in Ha.
  - rewrite Hmeta, lookup_insert_ne by done. unfold linked.
    destruct (last l) as [t|]; [|by eauto].
    rewrite lookup_alter. case_decide; [|by eauto]. subst. rewrite Hb.
    by eexists.
  - cbn [meta set_meta log]. rewrite lookup_insert_ne by done. by eauto.
Qed.

Lemma malloc_bytes size h p h' :
  heap_ok h -> malloc size h = Ret p h' -> bytes h' = bytes h.
Proof.
  intros Hok Hm.
  destruct (malloc_cases _ _ _ _ Hok Hm) as [(_ & _ & ->)|[_ He]]; [done|].
  by destruct He; subst.
Qed.

(** ** Recorded sizes never change *)






(** ** Records do not overlap *)

(** The two stores of the model, one for the records and one for the
    payload bytes, stand for one memory.  That is sound as long as no
    payload byte lies inside a record, which is what this section shows of
    every heap the allocator builds. *)









(** No payload byte lies inside a record. *)
Lemma payload_clear h a b a' b' i :
  heap_ok h -> extents_ok h ->
  meta h !! a = Some b -> meta h !! a' = Some b' ->
  a + META_SIZE <= i < extent_end a b -> ~ (a' <= i < a' + META_SIZE).
Proof.
  intros Hok [_ Hsep] Hb Hb' Hi.
  pose proof (ok_below _ Hok _ _ Hb') as (_ & _ & Hpos).
  unfold extent_end in *.
  destruct (Z.lt_trichotomy a a') as [Hlt|[->|Hgt]].
  - specialize (Hsep _ _ _ _ Hb Hb' Hlt). lia.
  - lia.
  - specialize (Hsep _ _ _ _ Hb' Hb Hgt). lia.
Qed.


(** * The claims *)

(** The scenario of the specification: two regions of 16 bytes, the first
    released and handed out again without growth, then a region of 32 bytes
    that does not fit the released size and is carved behind the second. *)
Example scenario :
  exists h4 h5,
    malloc 16 heap0 = Ret 4120 heap1 /\
    malloc 16 heap1 = Ret 4160 heap2 /\
    free 4120 heap2 = Ret tt heap3 /\
    malloc 16 heap3 = Ret 4120 h4 /\ brk h4 = brk heap2 /\
    malloc 32 h4 = Ret 4200 h5 /\ brk h5 = brk heap2 + 32 + META_SIZE.
Proof.
  do 2 eexists. split; [vm_compute; reflexivity|].
  split; [vm_compute; reflexivity|]. split; [vm_compute; reflexivity|].
  split; [vm_compute; reflexivity|]. split; [vm_compute; reflexivity|].
  split; vm_compute; reflexivity.
Qed.

(** ** C1: first-fit reuse *)




(** Right after the [malloc] that returned [p], [free(p)] does return, and
    the record of [p] is on the chain. *)
Lemma malloc_then_free h0 n p h1 :
  heap_ok h0 -> malloc n h0 = Ret p h1 -> p <> NULL ->
  exists h2 l, free p h1 = Ret tt h2 /\
    chain (meta h2) (global_base h2) l /\ get_block_ptr p ∈ l.
Proof.
  intros Hok Hm Hp.
  destruct (malloc_live _ _ _ _ Hok Hm Hp) as (b & l & Hb & Hlive & Hsz & Hc & Hin).
  eexists _, l. split; [by apply free_live|]. cbn [meta global_base set_meta].
  split; [by eapply chain_insert|done].
Qed.

(** ** C2: failure of the heap-growth primitive *)

(** C2 at the failing input: in [heap_full] the break sits at the kernel's
    bound, so [sbrk(16 + META_SIZE)] returns its sentinel.  [malloc(16)] does
    not return [NULL]: [request_space] asserts [block == request] before it
    tests for the sentinel, and the process aborts.  The first [malloc] of
    the file, which tests before it asserts, returns [NULL] on the same
    heap.  The chain is as it was when the process dies. *)
Theorem malloc_aborts_when_sbrk_fails :
  fst (sbrk (intptr_of (16 + META_SIZE)) heap_full) = SBRK_FAILED /\
  malloc 16 heap_full =
    Abort (log (Ev_sbrk 40) (log (Ev_sbrk 0) (log (Ev_malloc 16) heap_full))) /\
  (exists h', Naive.malloc 16 heap_full = Ret NULL h').
Proof.
  split; [vm_compute; reflexivity|]. split; [vm_compute; reflexivity|].
  eexists. vm_compute. reflexivity.
Qed.

(** ** C3: [realloc] to a size the record already has *)

(** C3: for a non-null [ptr] with a record in front of it whose recorded size
    is at least [size], [realloc(ptr, size)] returns [ptr] and leaves the heap
    exactly as it was: no call of [sbrk] or [malloc] is logged, and the
    break, the chain, every record and every byte are unchanged. *)
Theorem realloc_enough_space ptr size h b :
  ptr <> NULL -> meta h !! get_block_ptr ptr = Some b -> size <= bm_size b ->
  realloc ptr size h = Ret ptr h.
Proof.
  intros Hp Hb Hsz. unfold realloc.
  apply Z.eqb_neq in Hp. rewrite Hp, Hb.
  apply Z.leb_le in Hsz. by rewrite Hsz.
Qed.

Lemma realloc_enough_space_witness :
  4120 <> NULL /\ meta heap1 !! get_block_ptr 4120 = Some (carved 16) /\
  10 <= bm_size (carved 16) /\
  realloc 4120 10 heap1 = Ret 4120 heap1.
Proof.
  split; [done|]. split; [vm_compute; reflexivity|]. split; [simpl; lia|].
  apply (realloc_enough_space 4120 10 heap1 (carved 16));
    [done|vm_compute; reflexivity|simpl; lia].
Defined.

(** ** C5: a growing [realloc] when the heap cannot grow *)

(** C5 at the failing input: [malloc(16)] in [heap_tight] returns 4120 and
    uses up the room; [realloc(4120, 32)] then needs a new region, the inner
    [malloc(32)] dies in the [assert] of [request_space], and so [realloc]
    never reaches its [return NULL].  The record of 4120 is as it was when
    the process dies. *)
Theorem realloc_aborts_when_sbrk_fails :
  exists h1 h',
    malloc 16 heap_tight = Ret 4120 h1 /\
    realloc 4120 32 h1 = Abort h' /\
    meta h' !! get_block_ptr 4120 = meta h1 !! get_block_ptr 4120 /\
    meta h1 !! get_block_ptr 4120 = Some (carved 16).
Proof.
  do 2 eexists. split; [vm_compute; reflexivity|].
  split; [vm_compute; reflexivity|]. split; vm_compute; reflexivity.
Qed.

(** The same in general: a growing [realloc] of a live region aborts
    whenever no released record is large enough and [sbrk] refuses. *)
Lemma realloc_sbrk_fails ptr size h b l :
  heap_ok h -> ptr <> NULL -> meta h !! get_block_ptr ptr = Some b ->
  bm_size b < size -> size + META_SIZE < 2 ^ 63 ->
  chain (meta h) (global_base h) l -> Forall (nofit h size) l ->
  heap_hi h < brk h + size + META_SIZE ->
  realloc ptr size h =
    Abort (log (Ev_sbrk (size + META_SIZE))
               (log (Ev_sbrk 0) (log (Ev_malloc size) h))).
Proof.
  intros Hok Hp Hb Hsz Hov Hc Hn Hhi. unfold realloc.
  pose proof (ok_below _ Hok _ _ Hb) as (_ & _ & Hpos).
  apply Z.eqb_neq in Hp. rewrite Hp, Hb.
  apply Z.leb_gt in Hsz as Hsz'. rewrite Hsz'.
  rewrite (malloc_sbrk_fails size h l); [done|done|lia|done..].
Qed.

(** [realloc] itself passes a [NULL] from [malloc] on and leaves the old
    region alone; what never happens is that [malloc] returns [NULL] after a
    failed [sbrk]. *)
Lemma realloc_passes_NULL ptr size h b h1 :
  ptr <> NULL -> meta h !! get_block_ptr ptr = Some b -> bm_size b < size ->
  malloc size h = Ret NULL h1 -> realloc ptr size h = Ret NULL h1.
Proof.
  intros Hp Hb Hsz Hm. unfold realloc.
  apply Z.eqb_neq in Hp. rewrite Hp, Hb.
  apply Z.leb_gt in Hsz. by rewrite Hsz, Hm.
Qed.

(** ** C6: the consistency check of [free] *)



(** ** C7: requests of zero and of negative size *)

(** C7, as the specification states it, fails for negative requests: the
    parameter of [malloc] is a [size_t], so the request -1 arrives as
    [SIZE_MAX], which the guard [size <= 0] lets through; [request_space]
    then calls [sbrk] twice, the second time with the wrapped increment 23,
    and the break moves. *)
Lemma malloc_negative_request :
  size_t_of (-1) = SIZE_MAX /\
  exists h',
    malloc (size_t_of (-1)) heap0 = Undef h' /\
    calls h' = [Ev_sbrk 23; Ev_sbrk 0; Ev_malloc SIZE_MAX] /\
    brk h' = brk heap0 + 23.
Proof.
  split; [reflexivity|]. eexists. split; [vm_compute; reflexivity|].
  split; vm_compute; reflexivity.
Qed.

(** C7 (amended to the request of zero bytes): [malloc(0)] returns [NULL] in
    every heap, and the heap is as before except for the log entry of this
    very call: [sbrk] is not called, and the break, the chain and every
    record are unchanged. *)
Theorem malloc_zero h :
  malloc 0 h = Ret NULL (log (Ev_malloc 0) h) /\
  calls (log (Ev_malloc 0) h) = Ev_malloc 0 :: calls h /\
  brk (log (Ev_malloc 0) h) = brk h /\
  global_base (log (Ev_malloc 0) h) = global_base h /\
  meta (log (Ev_malloc 0) h) = meta h.
Proof. done. Qed.

(** ** C4: a growing [realloc] *)


(** What a growing [realloc] does once its [malloc] has returned [q]. *)
Lemma realloc_after_malloc ptr size h b q h1 :
  heap_ok h -> ptr <> NULL -> meta h !! get_block_ptr ptr = Some b ->
  live b -> bm_size b < size ->
  malloc size h = Ret q h1 -> q <> NULL ->
  q <> ptr /\ bytes h1 = bytes h /\
  exists b1, meta h1 !! get_block_ptr ptr = Some b1 /\ bm_size b1 = bm_size b /\
    realloc ptr size h =
      Ret q (set_meta (<[get_block_ptr ptr := set_free_magic 1 MAGIC_RELEASED b1]>
                         (meta h1))
                      (memcpy q ptr (bm_size b) h1)).
Proof.
  intros Hok Hp Hb [Hf Hmg] Hsz Hm Hq.
  assert (Hx : get_block_ptr ptr <> get_block_ptr q).
  { intros E. rewrite E in Hb.
    by apply (malloc_takes_free _ _ _ _ _ Hok Hm Hq) in Hb. }
  destruct (malloc_others _ _ _ _ _ _ Hok Hm Hq Hb Hx)
    as (b1 & Hb1 & Hs1 & Hf1 & Hm1).
  split; [congruence|]. split; [by eapply malloc_bytes|].
  exists b1. split; [done|]. split; [done|].
  unfold realloc. apply Z.eqb_neq in Hp as Hp'. rewrite Hp', Hb.
  apply Z.leb_gt in Hsz. rewrite Hsz, Hm. cbn [bind].
  apply Z.eqb_neq in Hq. rewrite Hq, Hb1, Hs1.
  rewrite (free_live ptr _ b1); [done|done|done|].
  split; congruence.
Qed.



(** The bytes [realloc] copies land in the payload of the new record. *)
Lemma realloc_writes_payload ptr size h b q h' :
  heap_ok h -> ptr <> NULL -> meta h !! get_block_ptr ptr = Some b ->
  live b -> bm_size b < size ->
  realloc ptr size h = Ret q h' -> q <> NULL ->
  exists bq, meta h' !! get_block_ptr q = Some bq /\ bm_size b < bm_size bq.
Proof.
  intros Hok Hp Hb Hlive Hsz Hr Hq.
  assert (exists h1, malloc size h = Ret q h1) as [h1 Hm].
  { unfold realloc in Hr. apply Z.eqb_neq in Hp as Hp'. rewrite Hp', Hb in Hr.
    apply Z.leb_gt in Hsz. rewrite Hsz in Hr.
    destruct (malloc size h) as [q0 h1| | |]; try done. cbn [bind] in Hr.
    destruct (q0 =? NULL) eqn:E; [by simplify_eq|].
    destruct (meta h1 !! get_block_ptr ptr); [|done].
    destruct (free ptr _) as [[] ?| | |]; try done. cbn [bind] in Hr.
    simplify_eq. by eexists. }
  destruct (realloc_after_malloc _ _ _ _ _ _ Hok Hp Hb Hlive Hsz Hm Hq)
    as (Hne & _ & b1 & _ & _ & Heq).
  destruct (malloc_live _ _ _ _ Hok Hm Hq) as (bq & _ & Hbq & _ & Hle & _).
  rewrite Heq in Hr. injection Hr as <-. exists bq. cbn [meta set_meta memcpy set_bytes].
  split; [|lia]. rewrite lookup_insert_ne; [done|].
  unfold get_block_ptr. lia.
Qed.

(** ** C8: the overflow check of [calloc] *)

(** The test of [calloc] detects exactly the products that do not fit. *)
Lemma calloc_test_overflow nelem elsize :
  0 <= nelem -> 0 <= elsize ->
  (0 < nelem /\ SIZE_MAX / nelem < elsize) <-> SIZE_MAX < nelem * elsize.
Proof.
  intros Hn He. split.
  - intros [Hpos Hlt].
    pose proof (Z.mul_succ_div_gt SIZE_MAX nelem Hpos) as Hq.
    revert Hq Hlt. generalize (SIZE_MAX / nelem). intros q Hq Hlt.
    apply Z.lt_le_trans with (nelem * Z.succ q); [done|].
    apply Z.mul_le_mono_nonneg_l; lia.
  - intros Hlt. assert (H0 : 0 <= SIZE_MAX) by (by vm_compute).
    assert (Hpos : 0 < nelem).
    { destruct (decide (nelem = 0)) as [->|]; lia. }
    split; [done|].
    by apply Z.div_lt_upper_bound.
Qed.

(** When the test does not fire, the product is computed without wrapping
    and handed to [malloc]. *)
Lemma calloc_no_overflow nelem elsize h :
  is_size_t nelem -> is_size_t elsize ->
  ~ (0 < nelem /\ SIZE_MAX / nelem < elsize) ->
  calloc nelem elsize h =
    (let* (ptr, h1) := malloc (nelem * elsize) h in
     if negb (ptr =? NULL) then Ret ptr (memset ptr 0 (nelem * elsize) h1)
     else Ret ptr h1).
Proof.
  intros Hn He Hno.
  assert (E : (0 <? nelem) && (SIZE_MAX / nelem <? elsize) = false).
  { apply not_true_is_false. by rewrite andb_true_iff, !Z.ltb_lt. }
  assert (Hsmall : size_t_of (nelem * elsize) = nelem * elsize).
  { unfold size_t_of. apply Z.mod_small.
    rewrite (calloc_test_overflow nelem elsize (proj1 Hn) (proj1 He)) in Hno.
    unfold is_size_t, SIZE_MAX in *. nia. }
  unfold calloc. by rewrite E, Hsmall.
Qed.

(** C8: for [nelem] and [elsize] of type [size_t], [calloc] returns [NULL]
    without a call of [malloc] exactly when [nelem > 0] and
    [SIZE_MAX / nelem < elsize], which is exactly when the product exceeds
    [SIZE_MAX]; otherwise it is [malloc(nelem * elsize)] followed, on
    success, by a [memset], after which every byte of the returned region
    reads as zero. *)
Theorem calloc_overflow_check nelem elsize h :
  0 <= nelem <= SIZE_MAX -> 0 <= elsize <= SIZE_MAX ->
  ((exists h', calloc nelem elsize h = Ret NULL h' /\ calls h' = calls h) <->
   (0 < nelem /\ SIZE_MAX / nelem < elsize)) /\
  ((0 < nelem /\ SIZE_MAX / nelem < elsize) <-> SIZE_MAX < nelem * elsize) /\
  (~ (0 < nelem /\ SIZE_MAX / nelem < elsize) ->
   calloc nelem elsize h =
     (let* (ptr, h1) := malloc (nelem * elsize) h in
      if negb (ptr =? NULL) then Ret ptr (memset ptr 0 (nelem * elsize) h1)
      else Ret ptr h1) /\
   forall ptr h', calloc nelem elsize h = Ret ptr h' -> ptr <> NULL ->
     forall i, 0 <= i < nelem * elsize -> bytes h' (ptr + i) = 0).
Proof.
  intros Hn He.
  pose proof (calloc_test_overflow nelem elsize (proj1 Hn) (proj1 He)) as Hov.
  assert (Htest : (0 <? nelem) && (SIZE_MAX / nelem <? elsize) = true <->
                  (0 < nelem /\ SIZE_MAX / nelem < elsize)).
  { by rewrite andb_true_iff, !Z.ltb_lt. }
  split; [|split; [done|]].
  - split.
    + intros (h' & Hc & Hcalls). apply Htest.
      destruct (_ && _) eqn:E; [done|]. exfalso.
      unfold calloc in Hc. rewrite E in Hc.
      destruct (malloc _ h) as [q h1| | |] eqn:Hq; try done.
      apply malloc_shape in Hq as [_ [evs Hevs]]. cbn [bind] in Hc.
      assert (Hsame : calls h' = calls h1) by (by case_match; simplify_eq).
      rewrite Hsame in Hcalls.
      apply (f_equal length) in Hevs. rewrite length_app in Hevs.
      simpl in Hevs. apply (f_equal length) in Hcalls. lia.
    + intros Ht. exists h. unfold calloc. apply Htest in Ht. by rewrite Ht.
  - intros Hno.
    pose proof (calloc_no_overflow nelem elsize h Hn He Hno) as Heq.
    split; [done|]. intros ptr h' Hc Hptr i Hi. rewrite Heq in Hc.
    destruct (malloc _ h) as [q h1| | |]; try done. cbn [bind] in Hc.
    destruct (q =? NULL) eqn:Eq; cbn [negb] in Hc; simplify_eq.
    { by apply Z.eqb_eq in Eq. }
    cbn [bytes memset set_bytes].
    replace ((ptr <=? ptr + i) && (ptr + i <? ptr + nelem * elsize)) with true;
      [done|].
    symmetry. apply andb_true_iff. split; [apply Z.leb_le|apply Z.ltb_lt]; lia.
Qed.

Lemma calloc_overflow_check_witness :
  0 <= 4 <= SIZE_MAX /\ 0 <= 4 <= SIZE_MAX /\
  ~ (0 < 4 /\ SIZE_MAX / 4 < 4) /\
  calloc 4 4 heap0 = Ret 4120 (memset 4120 0 16 heap1) /\
  forall i, 0 <= i < 4 * 4 -> bytes (memset 4120 0 16 heap1) (4120 + i) = 0.
Proof.
  assert (Hr : 0 <= 4 <= SIZE_MAX) by (by vm_compute).
  assert (Hno : ~ (0 < 4 /\ SIZE_MAX / 4 < 4)) by (intros [_ H]; by vm_compute in H).
  assert (Hc : calloc 4 4 heap0 = Ret 4120 (memset 4120 0 16 heap1))
    by (vm_compute; reflexivity).
  split; [exact Hr|]. split; [exact Hr|]. split; [exact Hno|]. split; [exact Hc|].
  destruct (calloc_overflow_check 4 4 heap0 Hr Hr) as (_ & _ & Hz).
  destruct (Hz Hno) as [_ Hzero]. apply (Hzero 4120 _ Hc). done.
Defined.

(** The bytes [calloc] clears lie in the payload of the record it got. *)
Lemma calloc_writes_payload nelem elsize h p h' :
  heap_ok h -> is_size_t nelem -> is_size_t elsize ->
  ~ (0 < nelem /\ SIZE_MAX / nelem < elsize) ->
  calloc nelem elsize h = Ret p h' -> p <> NULL ->
  exists b, meta h' !! get_block_ptr p = Some b /\ nelem * elsize <= bm_size b.
Proof.
  intros Hok Hn He Hno Hc Hp.
  rewrite (calloc_no_overflow nelem elsize h Hn He Hno) in Hc.
  destruct (malloc _ h) as [q h1| | |] eqn:Hm; try done. cbn [bind] in Hc.
  assert (q = p) as -> by (by case_match; simplify_eq).
  destruct (malloc_live _ _ _ _ Hok Hm Hp) as (b & _ & Hb & _ & Hle & _).
  exists b. split; [|done]. by case_match; simplify_eq.
Qed.

(** ** C9: what a successful [malloc] touches *)




(** ** C10: the markers *)



(** * Further properties of the code *)

(** ** Concrete heaps *)

Lemma heap1_ok : heap_ok heap1.
Proof.
  apply (malloc_heap_ok 16 heap0 4120); [exact heap0_ok|vm_compute; reflexivity].
Qed.

Lemma heap1_chain : chain (meta heap1) (global_base heap1) [4096].
Proof. econstructor; [done|vm_compute; reflexivity|constructor]. Qed.


(** ** The first [malloc] of the file *)

(** X1: the first [malloc] of the file, called in a process whose break is
    within the kernel's bounds with a size below 2^63, never aborts: with
    room for [size] bytes it returns the old break and moves the break up by
    exactly [size]; without room it returns [NULL] and leaves the break
    where it was.  It keeps no records. *)
Theorem naive_malloc_moves_break size h :
  is_size_t size -> size < 2 ^ 63 ->
  heap_lo h <= brk h <= heap_hi h -> heap_hi h < SBRK_FAILED ->
  (brk h + size <= heap_hi h ->
   exists h', Naive.malloc size h = Ret (brk h) h' /\
     brk h' = brk h + size /\ meta h' = meta h /\ bytes h' = bytes h) /\
  (heap_hi h < brk h + size ->
   exists h', Naive.malloc size h = Ret NULL h' /\
     brk h' = brk h /\ meta h' = meta h /\ bytes h' = bytes h).
Proof.
  intros [Hs0 _] Hs Hb Hhi. unfold Naive.malloc, sbrk. cbn [Z.eqb brk log heap_lo heap_hi].
  rewrite intptr_of_small by lia.
  assert (Hnf : (brk h =? SBRK_FAILED) = false) by (apply Z.eqb_neq; lia).
  split; intros Hroom.
  - destruct (size =? 0) eqn:E0.
    + apply Z.eqb_eq in E0 as ->. rewrite Hnf, Z.eqb_refl. cbn [negb].
      eexists. split; [done|]. cbn [brk meta bytes log]. split; [lia|done].
    + replace ((heap_lo h <=? brk h + size) && (brk h + size <=? heap_hi h))
        with true by (symmetry; apply andb_true_iff; split; apply Z.leb_le; lia).
      rewrite Hnf, Z.eqb_refl. cbn [negb].
      eexists. split; [done|]. done.
  - replace (size =? 0) with false by (symmetry; apply Z.eqb_neq; lia).
    replace (brk h + size <=? heap_hi h) with false
      by (symmetry; apply Z.leb_gt; lia).
    rewrite andb_false_r, Z.eqb_refl. eexists. split; [done|]. done.
Qed.

Lemma naive_malloc_moves_break_witness :
  exists h', Naive.malloc 16 heap0 = Ret (brk heap0) h' /\
    brk h' = brk heap0 + 16 /\ meta h' = meta heap0 /\ bytes h' = bytes heap0.
Proof.
  apply (naive_malloc_moves_break 16 heap0);
    [by vm_compute|by vm_compute|by vm_compute|by vm_compute|by vm_compute].
Defined.

(** ** [find_free_block] *)

Lemma find_free_loop_sound fuel : forall size current last h block last' h',
  find_free_loop fuel size current last h = Ret (block, last') h' ->
  h' = h /\
  (block = NULL \/ exists b, meta h !! block = Some b /\ fits size b).
Proof.
  induction fuel as [|fuel IH]; intros size current last h block last' h' H;
    [done|].
  cbn [find_free_loop] in H.
  destruct (current =? NULL) eqn:E0.
  { apply Z.eqb_eq in E0. simplify_eq. by auto. }
  destruct (meta h !! current) as [c|] eqn:Hc; [|done].
  destruct (negb (bm_free c =? 0) && (size <=? bm_size c)) eqn:Ef; [|by eauto].
  apply fits_test in Ef. simplify_eq. by eauto.
Qed.

(** X2: in any heap, even one whose chain is damaged, a [find_free_block]
    that returns has not changed the heap, and the block it returns, unless
    it is [NULL], has a record that is free and at least [size] bytes
    large. *)
Theorem find_free_block_sound last size h block last' h' :
  find_free_block last size h = Ret (block, last') h' ->
  h' = h /\
  (block = NULL \/
   exists b, meta h !! block = Some b /\ bm_free b <> 0 /\ size <= bm_size b).
Proof. unfold find_free_block. apply find_free_loop_sound. Qed.

Lemma find_free_block_sound_witness :
  heap3 = heap3 /\
  (4096 = NULL \/
   exists b, meta heap3 !! 4096 = Some b /\ bm_free b <> 0 /\ 16 <= bm_size b).
Proof.
  apply (find_free_block_sound 4096 16 heap3 4096 4096 heap3).
  vm_compute. reflexivity.
Defined.

(** X3: when [global_base] heads a chain that ends, [find_free_block]
    returns, and it returns the first record of the chain that is free and
    large enough, with [last] on the record before it; when no record
    qualifies it returns [NULL], with [last] on the last record of the
    chain (on its initial value when the chain is empty). *)
Theorem find_free_block_first_fit last size h l :
  chain (meta h) (global_base h) l ->
  exists block last',
    find_free_block last size h = Ret (block, last') h /\
    ((block = NULL /\ Forall (nofit h size) l /\ last' = List.last l last) \/
     (exists l1 l2 b,
        l = l1 ++ block :: l2 /\ Forall (nofit h size) l1 /\
        meta h !! block = Some b /\ fits size b /\
        last' = List.last l1 last)).
Proof.
  intros Hc. pose proof (chain_length _ _ _ Hc) as Hlen.
  unfold find_free_block.
  destruct (first_fit_split h size l)
    as [Hn|(l1 & x & l2 & b & -> & Hn & Hb & Hf)].
  - exists NULL, (List.last l last). split; [|by left].
    apply find_free_loop_none; [done|done|lia].
  - exists x, (List.last l1 last). split.
    + eapply find_free_loop_found; eauto.
      rewrite length_app in Hlen. simpl in Hlen. lia.
    + right. by exists l1, l2, b.
Qed.

Lemma find_free_block_first_fit_witness :
  exists block last',
    find_free_block 4096 32 heap1 = Ret (block, last') heap1 /\
    ((block = NULL /\ Forall (nofit heap1 32) [4096] /\
      last' = List.last [4096] 4096) \/
     (exists l1 l2 b,
        [4096] = l1 ++ block :: l2 /\ Forall (nofit heap1 32) l1 /\
        meta heap1 !! block = Some b /\ fits 32 b /\
        last' = List.last l1 4096)).
Proof.
  apply (find_free_block_first_fit 4096 32 heap1 [4096]). exact heap1_chain.
Defined.

(** ** [free] *)

(** X4: releasing the same region twice is caught: after a [free(ptr)] that
    returned, for a non-null [ptr], a second [free(ptr)] aborts and changes
    nothing. *)
Theorem double_free_aborts ptr h h' :
  ptr <> NULL -> free ptr h = Ret tt h' -> free ptr h' = Abort h'.
Proof.
  intros Hp H. unfold free in *. apply Z.eqb_neq in Hp. rewrite Hp in *.
  destruct (meta h !! get_block_ptr ptr) as [b|]; [|done].
  destruct (negb (bm_free b =? 0)); [done|].
  destruct (negb _); [done|]. simplify_eq.
  cbn [meta set_meta]. by rewrite lookup_insert_eq.
Qed.

Lemma double_free_aborts_witness :
  4120 <> NULL /\ free 4120 heap2 = Ret tt heap3 /\
  free 4120 heap3 = Abort heap3.
Proof.
  split; [done|]. split; [vm_compute; reflexivity|].
  apply (double_free_aborts 4120 heap2 heap3); [done|vm_compute; reflexivity].
Defined.

(** X5: a [free] that returns gives nothing back: it calls neither [sbrk]
    nor [malloc], leaves the break, [global_base] and every payload byte as
    they were, removes no record, and changes no record but the one in
    front of [ptr], which keeps its size and its link. *)
Theorem free_gives_nothing_back ptr h h' :
  free ptr h = Ret tt h' ->
  calls h' = calls h /\ brk h' = brk h /\ global_base h' = global_base h /\
  bytes h' = bytes h /\ dom (meta h') = dom (meta h) /\
  (forall a, a <> get_block_ptr ptr -> meta h' !! a = meta h !! a) /\
  (forall b, meta h !! get_block_ptr ptr = Some b ->
     exists b', meta h' !! get_block_ptr ptr = Some b' /\
       bm_size b' = bm_size b /\ bm_next b' = bm_next b).
Proof.
  unfold free. intros H.
  destruct (ptr =? NULL); [simplify_eq; split_and!; by eauto|].
  destruct (meta h !! get_block_ptr ptr) as [b|] eqn:Hb; [|done].
  destruct (negb (bm_free b =? 0)); [done|].
  destruct (negb _); [done|]. simplify_eq. cbn [calls brk global_base bytes meta set_meta].
  split_and!; try done.
  - by apply dom_insert_lookup_L.
  - intros a Ha. by rewrite lookup_insert_ne.
  - intros b0 [= <-]. rewrite lookup_insert_eq. by eexists.
Qed.

Lemma free_gives_nothing_back_witness :
  free 4120 heap2 = Ret tt heap3 /\
  calls heap3 = calls heap2 /\ brk heap3 = brk heap2 /\
  dom (meta heap3) = dom (meta heap2).
Proof.
  assert (Hf : free 4120 heap2 = Ret tt heap3) by (vm_compute; reflexivity).
  split; [exact Hf|].
  destruct (free_gives_nothing_back 4120 heap2 heap3 Hf)
    as (Hc & Hb & _ & _ & Hd & _).
  split; [exact Hc|]. split; [exact Hb|exact Hd].
Defined.

(** ** [malloc] and [request_space] *)



(** X7: in a heap that satisfies the invariant, a [malloc] of a positive
    size whose sum with [META_SIZE] stays below 2^63 returns if and only if
    some record on the chain is free and large enough or the kernel grants
    [size + META_SIZE] more bytes. *)
Theorem malloc_returns_iff size h l :
  heap_ok h -> chain (meta h) (global_base h) l ->
  0 < size -> size + META_SIZE < 2 ^ 63 ->
  (exists p h', malloc size h = Ret p h') <->
  ((exists x b, x ∈ l /\ meta h !! x = Some b /\ fits size b) \/
   brk h + size + META_SIZE <= heap_hi h).
Proof.
  intros Hok Hc Hsz Hov. split.
  - intros (p & h' & Hm).
    destruct (first_fit_split h size l)
      as [Hn|(l1 & x & l2 & b & -> & Hn & Hb & Hf)].
    + right. destruct (decide (brk h + size + META_SIZE <= heap_hi h)); [done|].
      rewrite (malloc_sbrk_fails size h l) in Hm by (done || lia). done.
    + left. exists x, b. split; [|done]. apply elem_of_app. right. left.
  - intros [(x & b & Hx & Hb & Hf)|Hroom].
    + destruct (first_fit_split h size l)
        as [Hn|(l1 & y & l2 & c & -> & Hn & Hy & Hfy)].
      * rewrite Forall_forall in Hn. by destruct (Hn x Hx b Hb).
      * do 2 eexists. by apply (malloc_recycle h size l1 y l2 c).
    + destruct (malloc_succeeds size h) as (p & h' & Hm & _); by eauto.
Qed.

Lemma malloc_returns_iff_witness :
  (exists p h', malloc 16 heap1 = Ret p h') <->
  ((exists x b, x ∈ [4096] /\ meta heap1 !! x = Some b /\ fits 16 b) \/
   brk heap1 + 16 + META_SIZE <= heap_hi heap1).
Proof.
  apply (malloc_returns_iff 16 heap1 [4096]);
    [exact heap1_ok|exact heap1_chain|lia|by vm_compute].
Defined.



(** X9: in a heap that satisfies the invariant, when no record on the chain
    is free and large enough and the kernel does not grant
    [size + META_SIZE] more bytes, [malloc] does not return: the [assert] of
    [request_space] stops the process, after the two calls of [sbrk], with
    the break, the chain and every record as they were. *)
Theorem malloc_stops_without_room size h l :
  heap_ok h -> 0 < size -> size + META_SIZE < 2 ^ 63 ->
  chain (meta h) (global_base h) l -> Forall (nofit h size) l ->
  heap_hi h < brk h + size + META_SIZE ->
  exists h',
    malloc size h = Abort h' /\
    calls h' = Ev_sbrk (size + META_SIZE) :: Ev_sbrk 0 :: Ev_malloc size :: calls h /\
    brk h' = brk h /\ global_base h' = global_base h /\ meta h' = meta h /\
    bytes h' = bytes h.
Proof.
  intros Hok Hsz Hov Hc Hn Hhi. eexists. split;
    [by apply (malloc_sbrk_fails size h l)|done].
Qed.

Lemma malloc_stops_without_room_witness :
  exists h',
    malloc 5000 heap1 = Abort h' /\
    calls h' = Ev_sbrk (5000 + META_SIZE) :: Ev_sbrk 0 :: Ev_malloc 5000 :: calls heap1 /\
    brk h' = brk heap1 /\ global_base h' = global_base heap1 /\
    meta h' = meta heap1 /\ bytes h' = bytes heap1.
Proof.
  apply (malloc_stops_without_room 5000 heap1 [4096]);
    [exact heap1_ok|lia|by vm_compute|exact heap1_chain| |by vm_compute].
  constructor; [|constructor].
  intros b Hb [Hf _]. vm_compute in Hb. injection Hb as <-. by apply Hf.
Defined.

(** ** What every sequence of calls keeps *)
















(** ** [calloc] and [realloc] write only where they may *)

(** X13: [calloc] with no elements or with elements of no size yields no
    region: the product is zero, [malloc(0)] is called and returns [NULL],
    and nothing but the log entry of that call changes. *)
Theorem calloc_of_nothing nelem elsize h :
  is_size_t nelem -> is_size_t elsize -> nelem * elsize = 0 ->
  calloc nelem elsize h = Ret NULL (log (Ev_malloc 0) h).
Proof.
  intros Hn He H0.
  rewrite calloc_no_overflow; [by rewrite H0|done|done|].
  rewrite (calloc_test_overflow nelem elsize (proj1 Hn) (proj1 He)), H0.
  by vm_compute.
Qed.

Lemma calloc_of_nothing_witness :
  calloc 0 8 heap1 = Ret NULL (log (Ev_malloc 0) heap1) /\
  calloc 8 0 heap1 = Ret NULL (log (Ev_malloc 0) heap1).
Proof.
  split.
  - apply (calloc_of_nothing 0 8 heap1); [by vm_compute|by vm_compute|done].
  - apply (calloc_of_nothing 8 0 heap1); [by vm_compute|by vm_compute|done].
Defined.







